(** * Incremental invoice synchronisation: [data_pipeline/main.py]

    A shallow embedding of the batch job that copies invoice rows from the
    relational source into the historical parquet table, and the properties
    of its watermark, its extraction query, its row transformation and its
    merge (UPDATE followed by INSERT).

    Tables are lists of rows in physical order, SQL NULL and pandas' missing
    cells are [None], timestamps are instants counted as integers, and
    Python strings are lists of Unicode code points. *)

From Stdlib Require Import Ascii String Decimal DecimalPos DecimalN.
From stdpp Require Import base option list numbers sorting.

Local Open Scope Z_scope.

(** ** Python strings *)

(** A [str] is a sequence of code points. *)
Abbreviation pystr := (list N).

(** A literal written with ASCII characters only. *)
Definition lit (s : string) : pystr := N_of_ascii <$> list_ascii_of_string s.

#[global] Arguments lit : simpl never.

(** [str(None)], what [astype(str)] writes for a missing cell of an object
    column. *)
Definition str_None : pystr := lit "None".

(** [str(float('nan'))], what [astype(str)] writes for a cell that the
    [.str] accessor left missing. *)
Definition str_nan : pystr := lit "nan".

(** The interpreter's character tables for code points beyond ASCII: which
    of them [\s] and [\d] match. They belong to the Python runtime, so they
    are an interface of the model. *)
Class UnicodeTables := {
  unicode_space : N → bool;
  unicode_digit : N → bool
}.

(** The tables with no character beyond ASCII in either class. *)
Definition ascii_tables : UnicodeTables :=
  {| unicode_space := λ _, false; unicode_digit := λ _, false |}.

(** [\s] of a [str] pattern: TAB, LF, VT, FF, CR, the four separators
    0x1C-0x1F and the space, or a Unicode white space. *)
Definition is_space {U : UnicodeTables} (c : N) : bool :=
  if (c <? 128)%N
  then ((9 <=? c) && (c <=? 13) || (28 <=? c) && (c <=? 32))%N
  else unicode_space c.

(** [\d] of a [str] pattern: an ASCII digit, or a Unicode decimal digit. *)
Definition is_digit {U : UnicodeTables} (c : N) : bool :=
  if (c <? 128)%N then ((48 <=? c) && (c <=? 57))%N else unicode_digit c.

Definition SPACE : N := 32%N.
Definition SLASH : N := 47%N.
Definition COMMA : N := 44%N.
Definition DOT : N := 46%N.
Definition MINUS : N := 45%N.

(** [re.sub(r"\s+", " ", x)]: every maximal run of white space becomes one
    space. [in_run] records that the previous character was white space. *)
Fixpoint collapse {U : UnicodeTables} (in_run : bool) (x : pystr) : pystr :=
  match x with
  | [] => []
  | c :: x' =>
      if is_space c
      then (if in_run then collapse true x' else SPACE :: collapse true x')
      else c :: collapse false x'
  end.

Definition sub_spaces {U : UnicodeTables} (x : pystr) : pystr := collapse false x.

(** The pattern [\d{2}/\d{2}/\d{4}] matched at the start of [x]. *)
Definition date_at {U : UnicodeTables} (x : pystr) : bool :=
  match x with
  | d1 :: d2 :: s1 :: m1 :: m2 :: s2 :: y1 :: y2 :: y3 :: y4 :: _ =>
      is_digit d1 && is_digit d2 && bool_decide (s1 = SLASH)
      && is_digit m1 && is_digit m2 && bool_decide (s2 = SLASH)
      && is_digit y1 && is_digit y2 && is_digit y3 && is_digit y4
  | _ => false
  end.

(** [re.findall(r'\d{2}/\d{2}/\d{4}', x)]: the scan tries the pattern at each
    position from the left; after a match it resumes behind the ten matched
    characters. [skip] counts the characters of the last match still to be
    passed over. *)
Fixpoint scan {U : UnicodeTables} (skip : nat) (x : pystr) : list pystr :=
  match x with
  | [] => []
  | _ :: x' =>
      match skip with
      | S k => scan k x'
      | O => if date_at x then take 10 x :: scan 9 x' else scan 0 x'
      end
  end.

Definition findall {U : UnicodeTables} (x : pystr) : list pystr := scan 0 x.

(** The [billing_period] column: the description with its white space
    collapsed, and the lambda applied to every cell. A missing description
    stays missing through [.str.replace], and [re.findall] then raises
    TypeError on it: [None]. Indexing is a partial lookup, as [list[i]] is. *)
Definition derive_billing_period {U : UnicodeTables} (description : option pystr)
  : option pystr :=
  d ← description;
  let x := sub_spaces d in
  if bool_decide (1 < length (findall x))%nat
  then a ← findall x !! 0%nat; b ← findall x !! 1%nat; Some (a ++ lit " - " ++ b)
  else Some [].

(** [A-Za-zÀ-ÿ ]: the characters [company_name] keeps. *)
Definition name_char (c : N) : bool :=
  ((65 <=? c) && (c <=? 90) || (97 <=? c) && (c <=? 122)
   || (192 <=? c) && (c <=? 255) || (c =? 32))%N.

(** [str.lstrip()], and [str.strip()] through the reversed string. *)
Fixpoint lstrip {U : UnicodeTables} (x : pystr) : pystr :=
  match x with
  | [] => []
  | c :: x' => if is_space c then lstrip x' else x
  end.

Definition strip {U : UnicodeTables} (x : pystr) : pystr :=
  reverse (lstrip (reverse (lstrip x))).

(** The [company_name] column: the three [.str] steps, then [astype(str)].
    A missing name stays missing through [.str] and is written "nan". *)
Definition clean_company_name {U : UnicodeTables} (nome : option pystr) : pystr :=
  match nome with
  | None => str_nan
  | Some x => strip (sub_spaces (filter (λ c, name_char c = true) x))
  end.

(** [str(n)] of an integer, also what [CAST(n AS CHAR)] returns: its
    decimal digits behind the sign. *)
Fixpoint uint_str (u : Decimal.uint) : pystr :=
  match u with
  | Nil => []
  | D0 u => 48%N :: uint_str u
  | D1 u => 49%N :: uint_str u
  | D2 u => 50%N :: uint_str u
  | D3 u => 51%N :: uint_str u
  | D4 u => 52%N :: uint_str u
  | D5 u => 53%N :: uint_str u
  | D6 u => 54%N :: uint_str u
  | D7 u => 55%N :: uint_str u
  | D8 u => 56%N :: uint_str u
  | D9 u => 57%N :: uint_str u
  end.

Definition dec (n : N) : pystr := uint_str (N.to_uint n).

Definition str_int (z : Z) : pystr :=
  if bool_decide (z < 0) then MINUS :: dec (Z.abs_N z) else dec (Z.abs_N z).

(** [astype(str)] on a cell of an object column. *)
Definition astype_str (cell : option pystr) : pystr := default str_None cell.

(** ** The relational source *)

(** A row of [onfly.payment_invoice LEFT JOIN onfly.companies]: the columns
    of the invoice the query reads, and the two columns of its company, NULL
    when no company matches. Keys and type codes are integers, [amount] is
    the integer amount in minor units. *)
Module Src.
Record row := {
  id : Z;
  created_at : option Z;
  due_date : option Z;
  status : option pystr;
  process : option pystr;
  amount : option Z;
  type : option Z;
  description : option pystr;
  updated_at : option Z;
  deleted_at : option Z;
  companies_id : option Z;
  nome : option pystr
}.
End Src.

(** A row as [billing_query] returns it, the columns of [new_invoice_df]
    before any transformation. *)
Module Raw.
Record row := {
  company_name : option pystr;
  company_id : option pystr;
  invoice_generation : option Z;
  due_date : option Z;
  payment_date : option Z;
  description : option pystr;
  status_invoice : option pystr;
  status_process : option pystr;
  amount : option pystr;
  payment_type : pystr;
  invoice_id : Z;
  updated_at : option Z
}.
End Raw.

#[global] Instance raw_row_eq_dec : EqDecision Raw.row.
Proof. solve_decision. Defined.

(** [CASE WHEN payment_invoice.status = 'paid' THEN payment_invoice.updated_at
    ELSE NULL END]. The comparison is the equality of texts, and a NULL
    status compares unknown and takes the ELSE. *)
Definition payment_date_case (status : option pystr) (updated_at : option Z)
  : option Z :=
  if bool_decide (status = Some (lit "paid")) then updated_at else None.

(** The label of type 2, 'Cartão de Crédito', as code points. *)
Definition Cartao_de_Credito : pystr :=
  lit "Cart" ++ [227%N] ++ lit "o de Cr" ++ [233%N] ++ lit "dito".

(** [CASE WHEN payment_invoice.type = 1 THEN 'Boleto'
          WHEN payment_invoice.type = 2 THEN 'Cartão de Crédito'
          ELSE '' END]. *)
Definition payment_type_case (type : option Z) : pystr :=
  if bool_decide (type = Some 1) then lit "Boleto"
  else if bool_decide (type = Some 2) then Cartao_de_Credito
  else [].

(** Digits in groups of three from the right, as [FORMAT] separates them. *)
Fixpoint group3 (rev_digits : pystr) : pystr :=
  match rev_digits with
  | a :: b :: c :: ((_ :: _) as rest) => a :: b :: c :: COMMA :: group3 rest
  | _ => rev_digits
  end.

Definition two_digits (n : N) : pystr := [(48 + n / 10)%N; (48 + n mod 10)%N].

(** [FORMAT(payment_invoice.amount / 100, 2)] of an integer amount. The
    quotient is an exact decimal with two places, so rounding to two places
    changes nothing; the text has a ',' between groups of three digits. *)
Definition FORMAT_2 (amount : Z) : pystr :=
  let a := Z.abs_N amount in
  (if bool_decide (amount < 0) then [MINUS] else [])
  ++ reverse (group3 (reverse (dec (a / 100))))
  ++ DOT :: two_digits (a mod 100).

(** The SELECT list of the inner query. *)
Definition select (r : Src.row) : Raw.row :=
  {| Raw.company_name := Src.nome r;
     Raw.company_id := str_int <$> Src.companies_id r;
     Raw.invoice_generation := Src.created_at r;
     Raw.due_date := Src.due_date r;
     Raw.payment_date := payment_date_case (Src.status r) (Src.updated_at r);
     Raw.description := Src.description r;
     Raw.status_invoice := Src.status r;
     Raw.status_process := Src.process r;
     Raw.amount := FORMAT_2 <$> Src.amount r;
     Raw.payment_type := payment_type_case (Src.type r);
     Raw.invoice_id := Src.id r;
     Raw.updated_at := Src.updated_at r |}.

(** [updated_at_filter]: the empty text, or the comparison with the rendered
    watermark. [str] renders a missing watermark as NaT. The rendering of an
    instant into the query text and its reading by the source are taken to
    keep the instant. *)
Inductive filter_clause :=
  | no_filter
  | updated_after (latest_updated_at : option Z).

(** What the source answers to [payment_invoice.updated_at > 'NaT'], a
    comparison with a text that is no date. It is the database's choice. *)
Class SourceEngine := {
  after_NaT : option Z → bool
}.

(** [payment_invoice.updated_at > w]: a NULL never satisfies it. *)
Definition sql_gt (updated_at : option Z) (w : Z) : bool :=
  match updated_at with
  | Some t => bool_decide (w < t)
  | None => false
  end.

(** [WHERE deleted_at IS NULL {updated_at_filter}]. *)
Definition where_clause {E : SourceEngine} (f : filter_clause) (r : Src.row)
  : bool :=
  bool_decide (Src.deleted_at r = None)
  && match f with
     | no_filter => true
     | updated_after (Some w) => sql_gt (Src.updated_at r) w
     | updated_after None => after_NaT (Src.updated_at r)
     end.

(** [ORDER BY payment_invoice.due_date]: ascending, NULL first. *)
Definition due_date_le (a b : Raw.row) : Prop :=
  match Raw.due_date a, Raw.due_date b with
  | None, _ => True
  | Some _, None => False
  | Some x, Some y => x ≤ y
  end.

#[global] Instance due_date_le_dec : RelDecision due_date_le.
Proof. intros a b. unfold due_date_le. repeat case_match; apply _. Defined.

(** [billing_query] run on the joined rows of the source: WHERE, the SELECT
    list, ORDER BY, and DISTINCT on what results. *)
Definition billing_query {E : SourceEngine} (f : filter_clause)
    (source : list Src.row) : list Raw.row :=
  remove_dups (merge_sort due_date_le (select <$> filter (λ r, where_clause f r = true) source)).

(** ** The canonical record and the historical table *)

(** The float column [amount]. Its values are whatever pandas and DuckDB
    store; the merge copies them and never looks inside. [to_numeric] is
    [pd.to_numeric(column, downcast="float").round(2)] on a whole column of
    texts (the downcast is decided on the column), [None] when a text is no
    number and the call raises. *)
Class FloatColumn := {
  float : Type;
  to_numeric : list (option pystr) → option (list float)
}.

(** A row of [final_columns], which is also the schema of
    [billing_status_summary_historical]. *)
Record InvoiceRecord {F : FloatColumn} := {
  invoice_id : pystr;
  company_id : pystr;
  company_name : pystr;
  billing_period : pystr;
  invoice_generation : option Z;
  due_date : option Z;
  payment_date : option Z;
  status_invoice : pystr;
  status_process : pystr;
  payment_type : pystr;
  amount : float;
  updated_at : option Z;
  inserted_at : Z
}.

(** [MAX(column)]: NULL cells are ignored, and the maximum of no value is
    NULL. *)
Definition sql_max (column : list (option Z)) : option Z :=
  foldr (λ cell acc,
           match cell, acc with
           | Some t, Some m => Some (Z.max t m)
           | Some t, None => Some t
           | None, _ => acc
           end) None column.

Section Resolver.
Context {F : FloatColumn}.

(** The store location: the parquet files the glob finds, each with its
    rows. *)
Definition location : Type := list (list InvoiceRecord).

(** [read_parquet] of the glob: the rows of all files. *)
Definition read_parquet (files : location) : list InvoiceRecord := mjoin files.

(** [SELECT MAX(updated_at) FROM read_parquet(...)], read only when the glob
    found a file. *)
Definition latest_updated_at (files : location) : option Z :=
  sql_max (updated_at <$> read_parquet files).

(** The branch on [existing_files_df.empty]: no file, no filter; otherwise
    the filter on the maximum just read. *)
Definition updated_at_filter (files : location) : filter_clause :=
  match files with
  | [] => no_filter
  | _ => updated_after (latest_updated_at files)
  end.

(** The table [billing_status_summary_historical] after the same branch:
    created empty with the fixed columns, or filled from the files. *)
Definition billing_status_summary_historical (files : location)
  : list InvoiceRecord :=
  match files with
  | [] => []
  | _ => read_parquet files
  end.

End Resolver.

(** ** The row transformation *)

Section Transformer.
Context {U : UnicodeTables} {F : FloatColumn}.

(** [.str.replace(",", "")] on the formatted amount. *)
Definition strip_commas (x : pystr) : pystr := filter (λ c, c ≠ COMMA) x.

(** One row of [final_invoice_df], given its converted amount and the run
    time. Time stamps keep their instant through [to_datetime] and
    [tz_localize], and a missing one stays missing. *)
Definition transform_row (now : Z) (amt : float) (r : Raw.row)
  : option InvoiceRecord :=
  period ← derive_billing_period (Raw.description r);
  Some {| invoice_id := str_int (Raw.invoice_id r);
          company_id := astype_str (Raw.company_id r);
          company_name := clean_company_name (Raw.company_name r);
          billing_period := period;
          invoice_generation := Raw.invoice_generation r;
          due_date := Raw.due_date r;
          payment_date := Raw.payment_date r;
          status_invoice := astype_str (Raw.status_invoice r);
          status_process := default [] (Raw.status_process r);
          payment_type := Raw.payment_type r;
          amount := amt;
          updated_at := Raw.updated_at r;
          inserted_at := now |}.

(** The whole frame: the amount column is converted as a column, every
    other column cell by cell; an exception anywhere ends the run. *)
Definition transform (now : Z) (new_invoice_df : list Raw.row)
  : option (list InvoiceRecord) :=
  amounts ← to_numeric (fmap strip_commas <$> (Raw.amount <$> new_invoice_df));
  mapM (λ '(amt, r), transform_row now amt r) (zip amounts new_invoice_df).

End Transformer.

(** ** The merge *)

Section Merge.
Context {F : FloatColumn}.

(** The SET list of the UPDATE: nine columns come from the source row, the
    key and the three remaining columns stay. *)
Definition set_columns (target source : InvoiceRecord) : InvoiceRecord :=
  {| invoice_id := invoice_id target;
     company_id := company_id target;
     company_name := company_name target;
     billing_period := billing_period target;
     invoice_generation := invoice_generation source;
     due_date := due_date source;
     payment_date := payment_date source;
     status_invoice := status_invoice source;
     status_process := status_process source;
     payment_type := payment_type source;
     amount := amount source;
     updated_at := updated_at source;
     inserted_at := inserted_at source |}.

(** [source.invoice_id = target.invoice_id]. *)
Definition same_invoice (source target : InvoiceRecord) : Prop :=
  invoice_id source = invoice_id target.

#[global] Instance same_invoice_dec : RelDecision same_invoice.
Proof. intros s t. unfold same_invoice. apply _. Defined.

(** [UPDATE ... FROM billing_status_summary_new AS source WHERE
    source.invoice_id = target.invoice_id]: every target row with a matching
    source row takes the SET list from it. SQL leaves open which source row
    is used when several match; the first one is taken here. *)
Definition update_row (new : list InvoiceRecord) (target : InvoiceRecord)
  : InvoiceRecord :=
  match list_find (λ source, same_invoice source target) new with
  | Some (_, source) => set_columns target source
  | None => target
  end.

Definition sql_update (historical new : list InvoiceRecord)
  : list InvoiceRecord :=
  update_row new <$> historical.

(** [INSERT INTO ... SELECT source.* FROM new AS source LEFT JOIN historical
    AS target ON source.invoice_id = target.invoice_id WHERE
    target.invoice_id IS NULL]: the source rows no target row matches are
    appended. *)
Definition sql_insert (historical new : list InvoiceRecord)
  : list InvoiceRecord :=
  historical
  ++ filter (λ source, ¬ Exists (same_invoice source) historical) new.

(** The two statements in their order: the INSERT reads the table the
    UPDATE has written. *)
Definition upsert (historical new : list InvoiceRecord) : list InvoiceRecord :=
  sql_insert (sql_update historical new) new.

End Merge.

(** ** One run *)

Section Run.
Context {U : UnicodeTables} {F : FloatColumn} {E : SourceEngine}.

(** What one run exports. The outer [None] is a run ended by an exception;
    [Some None] is a run with no new invoice, which writes nothing;
    otherwise the table copied to the output path. *)
Definition run (files : location) (source : list Src.row) (now : Z)
  : option (option (list InvoiceRecord)) :=
  let historical := billing_status_summary_historical files in
  let new_invoice_df := billing_query (updated_at_filter files) source in
  final_invoice_df ← transform now new_invoice_df;
  Some (match final_invoice_df with
        | [] => None
        | _ => Some (upsert historical final_invoice_df)
        end).

End Run.

(** ** Decimal texts *)

(** The number a decimal text with two places denotes, counted in
    hundredths: the digits are read from the left and the dot is passed
    over; [None] when a character is neither. *)
Definition digit_value (c : N) : option Z :=
  if bool_decide (48 ≤ c ≤ 57)%N then Some (Z.of_N c - 48) else None.

Fixpoint read_digits (acc : Z) (x : pystr) : option Z :=
  match x with
  | [] => Some acc
  | c :: x' =>
      if bool_decide (c = DOT) then read_digits acc x'
      else d ← digit_value c; read_digits (10 * acc + d) x'
  end.

Definition read_hundredths (x : pystr) : option Z :=
  match x with
  | [] => None
  | c :: x' =>
      if bool_decide (c = MINUS) then Z.opp <$> read_digits 0 x'
      else read_digits 0 x
  end.

(** ** Sample data *)

(** Exact amounts, counted in hundredths: a column with no rounding and no
    NaN, which reads the text [FORMAT] writes and rejects a missing cell. *)
Definition hundredths : FloatColumn :=
  {| float := Z; to_numeric := mapM (λ cell, cell ≫= read_hundredths) |}.

(** A source that answers no row to a comparison with NaT. *)
Definition rejects_NaT : SourceEngine := {| after_NaT := λ _, false |}.

(** A stored record with the given key, amount (in hundredths), source
    modification time and insertion time. *)
Definition sample (key : string) (amt : @float hundredths)
    (updated inserted : Z) : InvoiceRecord (F:=hundredths) :=
  {| invoice_id := lit key;
     company_id := lit "7";
     company_name := lit "Acme";
     billing_period := [];
     invoice_generation := Some 1;
     due_date := Some 2;
     payment_date := None;
     status_invoice := lit "pending";
     status_process := [];
     payment_type := lit "Boleto";
     amount := amt;
     updated_at := Some updated;
     inserted_at := inserted |}.

(** The store {A: 10.00} and the delta {A: 20.00, B: 5.00}. *)
Definition store_A : list (InvoiceRecord (F:=hundredths)) :=
  [sample "A" 1000 50 100].

Definition delta_A_B : list (InvoiceRecord (F:=hundredths)) :=
  [sample "A" 2000 60 200; sample "B" 500 61 200].

(** Rows of the joined source: an unpaid invoice by boleto, a paid one by
    card, a soft-deleted one, and one last modified at 40. *)
Definition invoice (id : Z) (status : string) (type amount updated : Z)
    (deleted : option Z) (description : string) : Src.row :=
  {| Src.id := id;
     Src.created_at := Some 10;
     Src.due_date := Some (20 + id);
     Src.status := Some (lit status);
     Src.process := None;
     Src.amount := Some amount;
     Src.type := Some type;
     Src.description := Some (lit description);
     Src.updated_at := Some updated;
     Src.deleted_at := deleted;
     Src.companies_id := Some 7;
     Src.nome := Some (lit "Acme Ltda.") |}.

Definition pending_invoice : Src.row :=
  invoice 1 "pending" 1 123456 60 None "Invoice for period 01/01/2024 31/01/2024 extra text".

Definition paid_invoice : Src.row :=
  invoice 2 "paid" 2 500 70 None "Due 05/02/2024".

Definition deleted_invoice : Src.row :=
  invoice 3 "paid" 1 900 80 (Some 81) "".

Definition old_invoice : Src.row :=
  invoice 4 "pending" 3 100 40 None "".



Definition sample_source : list Src.row :=
  [pending_invoice; paid_invoice; deleted_invoice; old_invoice].

(** A location with two files: the store {A} and a file with the row C,
    modified at 55. *)
Definition two_files : location (F:=hundredths) :=
  [store_A; [sample "C" 300 55 100]].

(** Key, amount and insertion time of every row of a table. *)
Definition summary (rows : list (InvoiceRecord (F:=hundredths)))
  : list (pystr * Z * Z) :=
  (λ r, (invoice_id r, amount r, inserted_at r)) <$> rows.

(** ** Notions the properties are stated with *)

Section Notions.
Context {U : UnicodeTables}.

(** A token of the form DD/MM/YYYY: two digits, a slash, two digits, a
    slash, four digits. *)
Definition date_token (t : pystr) : Prop :=
  ∃ d1 d2 m1 m2 y1 y2 y3 y4 : N,
    t = [d1; d2; SLASH; m1; m2; SLASH; y1; y2; y3; y4]
    ∧ Forall (λ c, is_digit c = true) [d1; d2; m1; m2; y1; y2; y3; y4].

(** The tokens located in a text, from the left: the first token is the
    occurrence that starts earliest, and the search goes on behind it. *)
Inductive tokens_of : pystr → list pystr → Prop :=
  | tokens_none x :
      (∀ pre t post, x = pre ++ t ++ post → ¬ date_token t) →
      tokens_of x []
  | tokens_next pre t post ts :
      date_token t →
      (∀ pre' t' post', pre ++ t ++ post = pre' ++ t' ++ post' →
                        date_token t' → (length pre ≤ length pre')%nat) →
      tokens_of post ts →
      tokens_of (pre ++ t ++ post) (t :: ts).

(** A text with every run of white space collapsed to one space: other
    characters are copied, and a maximal non-empty run of white space is
    written as a single space. *)
Inductive collapsed : pystr → pystr → Prop :=
  | collapsed_nil : collapsed [] []
  | collapsed_char c x y :
      is_space c = false → collapsed x y → collapsed (c :: x) (c :: y)
  | collapsed_run run x y :
      run ≠ [] →
      Forall (λ c, is_space c = true) run →
      (∀ c x', x = c :: x' → is_space c = false) →
      collapsed x y →
      collapsed (run ++ x) (SPACE :: y).

(** A text whose white space is single spaces: every white space character
    in it is the space, and no two white space characters are adjacent. *)
Definition single_spaced (y : pystr) : Prop :=
  Forall (λ c, is_space c = true → c = SPACE) y
  ∧ ∀ pre c c' post, y = pre ++ c :: c' :: post →
                     is_space c = true → is_space c' = false.


End Notions.

(** What [pd.to_numeric] does on any column: one value per cell when it
    answers, and the empty column for the empty column. *)
Definition keeps_length (F : FloatColumn) : Prop :=
  ∀ column out, to_numeric column = Some out → length out = length column.

Definition accepts_empty (F : FloatColumn) : Prop :=
  to_numeric (FloatColumn:=F) [] = Some [].

(** What a row holds after it took the SET list from a source row. *)
Definition takes_set_list_from {F : FloatColumn} (t' s : InvoiceRecord)
  : Prop :=
  invoice_generation t' = invoice_generation s
  ∧ due_date t' = due_date s
  ∧ payment_date t' = payment_date s
  ∧ status_invoice t' = status_invoice s
  ∧ status_process t' = status_process s
  ∧ payment_type t' = payment_type s
  ∧ amount t' = amount s
  ∧ updated_at t' = updated_at s
  ∧ inserted_at t' = inserted_at s.

(** ** Properties of the text functions *)

Section TextFacts.
Context {U : UnicodeTables}.
Implicit Types x y t : pystr.

Lemma date_token_length t : date_token t → length t = 10%nat.
Proof. by intros (?&?&?&?&?&?&?&?&->&_). Qed.

Lemma date_at_true x :
  date_at x = true ↔ ∃ t rest, x = t ++ rest ∧ date_token t.
Proof.
  split.
  - destruct x as [|d1 [|d2 [|s1 [|m1 [|m2 [|s2 [|y1 [|y2 [|y3 [|y4 rest]]]]]]]]]];
      try done.
    unfold date_at. rewrite !andb_true_iff, !bool_decide_eq_true.
    intros [[[[[[[[[? ?] ->] ?] ?] ->] ?] ?] ?] ?].
    exists [d1; d2; SLASH; m1; m2; SLASH; y1; y2; y3; y4], rest.
    split; [done|]. exists d1, d2, m1, m2, y1, y2, y3, y4.
    split; [done|]. by repeat constructor.
  - intros (t & rest & -> & (d1&d2&m1&m2&y1&y2&y3&y4&->&Hd)).
    repeat (apply Forall_cons in Hd as [? Hd]). unfold date_at. cbn [app].
    rewrite !andb_true_iff, !bool_decide_eq_true. by split_and!.
Qed.

Lemma date_at_split x :
  date_at x = true → date_token (take 10 x) ∧ x = take 10 x ++ drop 10 x.
Proof.
  intros (t & rest & -> & Ht)%date_at_true.
  pose proof (date_token_length t Ht) as Hlen.
  by rewrite take_app_length', drop_app_length'.
Qed.

Lemma scan_skip k x : scan k x = scan 0 (drop k x).
Proof.
  revert k. induction x as [|c x IH]; intros k.
  - by rewrite drop_nil.
  - destruct k as [|k]; [done|]. simpl. apply IH.
Qed.

(** The scan as the regular expression engine runs it: a match at the
    current position is emitted and the search resumes behind it; otherwise
    the search moves one character on. *)
Lemma findall_unfold x :
  findall x
  = if date_at x then take 10 x :: findall (drop 10 x)
    else match x with [] => [] | _ :: x' => findall x' end.
Proof.
  unfold findall. destruct x as [|c x]; [done|].
  cbn [scan]. destruct (date_at (c :: x)); [|done].
  by rewrite scan_skip.
Qed.

Lemma tokens_of_shift c x ts :
  date_at (c :: x) = false → tokens_of x ts → tokens_of (c :: x) ts.
Proof.
  intros Hno Hts. destruct Hts as [x Hnone|pre t post ts Ht Hfirst Hts].
  - apply tokens_none. intros [|c' pre] t post Heq Ht.
    + assert (date_at (c :: x) = true) as Hyes; [|congruence].
      apply date_at_true. exists t, post. split; [exact Heq|done].
    + injection Heq as -> ->. by eapply Hnone.
  - apply (tokens_next (c :: pre)); [done| |done].
    intros [|c' pre'] t' post' Heq Ht'.
    + assert (date_at (c :: pre ++ t ++ post) = true) as Hyes; [|congruence].
      apply date_at_true. exists t', post'. split; [exact Heq|done].
    + injection Heq as -> Heq. simpl. apply le_n_S. by eapply Hfirst.
Qed.

Lemma findall_tokens x : tokens_of x (findall x).
Proof.
  remember (length x) as n eqn:Hn. revert x Hn.
  induction n as [n IH] using lt_wf_ind. intros x ->.
  rewrite findall_unfold. destruct (date_at x) eqn:Hd.
  - apply date_at_split in Hd as [Ht Hx].
    rewrite Hx at 1. apply (tokens_next [] (take 10 x) (drop 10 x)).
    + done.
    + intros. simpl. lia.
    + eapply IH; [|done]. rewrite length_drop.
      apply date_token_length in Ht. rewrite length_take in Ht. lia.
  - destruct x as [|c x].
    + apply tokens_none. intros [|??] [|??] ? [=] Ht.
      by apply date_token_length in Ht.
    + apply tokens_of_shift; [done|]. eapply IH; [|done]. simpl. lia.
Qed.

(** The tokens of a text are determined: they are what the scan finds. *)
Lemma tokens_of_findall x ts : tokens_of x ts → ts = findall x.
Proof.
  induction 1 as [x Hnone|pre t post ts Ht Hfirst Hts IH].
  - induction x as [|c x IHx]; [done|].
    rewrite findall_unfold. destruct (date_at (c :: x)) eqn:Hd.
    + apply date_at_true in Hd as (t & rest & Heq & Ht).
      destruct (Hnone [] t rest); by rewrite ?Heq.
    + apply IHx. intros pre t post -> Ht.
      by apply (Hnone (c :: pre) t post).
  - subst ts. clear Hts. induction pre as [|c pre IHpre].
    + change ([] ++ t ++ post) with (t ++ post).
      rewrite (findall_unfold (t ++ post)).
      assert (date_at (t ++ post) = true) as ->.
      { apply date_at_true. by exists t, post. }
      pose proof (date_token_length t Ht).
      by rewrite take_app_length', drop_app_length'.
    + change ((c :: pre) ++ t ++ post) with (c :: pre ++ t ++ post).
      rewrite (findall_unfold (c :: pre ++ t ++ post)).
      destruct (date_at (c :: pre ++ t ++ post)) eqn:Hd.
      * apply date_at_true in Hd as (t' & rest & Heq & Ht').
        specialize (Hfirst [] t' rest Heq Ht'). simpl in Hfirst. lia.
      * apply IHpre. intros pre' t' post' Heq Ht'.
        apply le_S_n. apply (Hfirst (c :: pre') t' post'); [|done].
        simpl. by rewrite Heq.
Qed.

Lemma collapse_true_run run x :
  Forall (λ c, is_space c = true) run →
  (∀ c x', x = c :: x' → is_space c = false) →
  collapse true (run ++ x) = collapse false x.
Proof.
  intros Hrun Hx. induction Hrun as [|c run Hc _ IH]; simpl.
  - destruct x as [|c x']; [done|]. simpl. by rewrite (Hx c x').
  - by rewrite Hc.
Qed.

Lemma collapse_true_split x :
  ∃ run rest, x = run ++ rest
    ∧ Forall (λ c, is_space c = true) run
    ∧ (∀ c x', rest = c :: x' → is_space c = false).
Proof.
  induction x as [|c x (run & rest & -> & Hrun & Hrest)].
  - exists [], []. by split_and!.
  - destruct (is_space c) eqn:Hc.
    + exists (c :: run), rest. split_and!; [done|by constructor|done].
    + exists [], (c :: run ++ rest). split_and!; [done|done|].
      by intros ?? [= <- _].
Qed.

Lemma sub_spaces_collapsed x : collapsed x (sub_spaces x).
Proof.
  remember (length x) as n eqn:Hn. revert x Hn.
  induction n as [n IH] using lt_wf_ind. intros x ->.
  destruct x as [|c x]; [constructor|].
  unfold sub_spaces. simpl. destruct (is_space c) eqn:Hc.
  - destruct (collapse_true_split x) as (run & rest & -> & Hrun & Hrest).
    rewrite collapse_true_run by done.
    apply (collapsed_run (c :: run)); [done|by constructor|done|].
    eapply IH; [|done]. simpl. rewrite length_app. lia.
  - apply collapsed_char; [done|]. eapply IH; [|done]. simpl. lia.
Qed.

(** The collapsed text is determined: it is what the substitution
    writes. *)
Lemma collapsed_sub_spaces x y : collapsed x y → y = sub_spaces x.
Proof.
  induction 1 as [|c x y Hc _ IH|run x y Hne Hrun Hx _ IH].
  - done.
  - unfold sub_spaces. simpl. rewrite Hc. by f_equal.
  - destruct Hrun as [|c run Hc Hrun]; [done|].
    unfold sub_spaces. simpl. rewrite Hc. f_equal.
    by rewrite collapse_true_run.
Qed.

(** C9. For every description, [billing_period] is derived from the text
    with its runs of white space collapsed to single spaces and from the
    DD/MM/YYYY tokens located in it: with two tokens or more it is the first
    two joined by " - ", with one or none it is empty, and no exception is
    raised. The collapsed text and its tokens are those the code computes.
    The description "Invoice for period 01/01/2024 31/01/2024 extra text"
    yields "01/01/2024 - 31/01/2024". *)
Theorem billing_period_derivation (d : pystr) :
  (∀ x tokens, collapsed d x → tokens_of x tokens →
     derive_billing_period (Some d)
     = Some (match tokens with
             | a :: b :: _ => a ++ lit " - " ++ b
             | _ => []
             end))
  ∧ collapsed d (sub_spaces d)
  ∧ tokens_of (sub_spaces d) (findall (sub_spaces d))
  ∧ derive_billing_period
      (Some (lit "Invoice for period 01/01/2024 31/01/2024 extra text"))
    = Some (lit "01/01/2024 - 31/01/2024").
Proof.
  split_and!.
  - intros x tokens ->%collapsed_sub_spaces ->%tokens_of_findall.
    unfold derive_billing_period. simpl.
    destruct (findall (sub_spaces d)) as [|a [|b rest]]; simpl; try done.
  - apply sub_spaces_collapsed.
  - apply findall_tokens.
  - vm_compute. reflexivity.
Qed.

End TextFacts.

(** Evaluation of C9 on descriptions with one date and with no date. *)
Lemma billing_period_one_or_no_date :
  derive_billing_period (U:=ascii_tables) (Some (lit "Due  05/02/2024")) = Some []
  ∧ derive_billing_period (U:=ascii_tables) (Some (lit "no date")) = Some [].
Proof.
  split.
  - exact (proj1 (billing_period_derivation (U:=ascii_tables) (lit "Due  05/02/2024"))
             _ _ (sub_spaces_collapsed _) (findall_tokens _)).
  - exact (proj1 (billing_period_derivation (U:=ascii_tables) (lit "no date"))
             _ _ (sub_spaces_collapsed _) (findall_tokens _)).
Defined.

(** ** Properties of the amount text *)

Lemma uint_str_digits u : Forall (λ c, (48 ≤ c ≤ 57)%N) (uint_str u).
Proof. induction u; simpl; constructor; (lia || done). Qed.











(** ** Properties of the row transformation *)

Section TransformFacts.
Context {U : UnicodeTables} {F : FloatColumn}.

Lemma transform_row_Some now amt (q : Raw.row) rec :
  transform_row now amt q = Some rec →
  payment_date rec = Raw.payment_date q
  ∧ status_invoice rec = astype_str (Raw.status_invoice q)
  ∧ payment_type rec = Raw.payment_type q
  ∧ derive_billing_period (Raw.description q) = Some (billing_period rec).
Proof.
  unfold transform_row.
  destruct (derive_billing_period (Raw.description q)) as [period|]; [|done].
  by intros [= <-].
Qed.

(** C7. In the record of an extracted row, [payment_date] is not null only
    when [status_invoice] is "paid"; with any other status it is null,
    whatever the time stamp of the source row. When it is not null it is the
    row's [updated_at]. *)
Theorem payment_date_only_when_paid now amt (r : Src.row) rec :
  transform_row now amt (select r) = Some rec →
  (payment_date rec ≠ None → status_invoice rec = lit "paid")
  ∧ (status_invoice rec ≠ lit "paid" → payment_date rec = None)
  ∧ (∀ t, payment_date rec = Some t → Src.updated_at r = Some t).
Proof.
  intros (Hdate & Hstatus & _)%transform_row_Some.
  rewrite Hdate, Hstatus. simpl. unfold payment_date_case.
  case_bool_decide as Hpaid.
  - rewrite Hpaid. simpl. by split_and!.
  - by split_and!.
Qed.

(** C8, as the code has it. The payment type is a total lookup on the type
    code: 1 gives "Boleto", 2 gives "Cartão de Crédito", any other code and
    a NULL code give the empty text; the record carries the text
    unchanged. *)
Theorem payment_type_closed_lookup (r : Src.row) :
  (Src.type r = Some 1 → Raw.payment_type (select r) = lit "Boleto")
  ∧ (Src.type r = Some 2 → Raw.payment_type (select r) = Cartao_de_Credito)
  ∧ (Src.type r ≠ Some 1 → Src.type r ≠ Some 2 →
       Raw.payment_type (select r) = [])
  ∧ (∀ now amt rec, transform_row now amt (select r) = Some rec →
       payment_type rec = Raw.payment_type (select r)).
Proof.
  simpl. unfold payment_type_case. split_and!.
  - by intros ->.
  - by intros ->.
  - intros H1 H2. by rewrite !bool_decide_false.
  - by intros now amt rec (_ & _ & ? & _)%transform_row_Some.
Qed.

End TransformFacts.

(** Evaluation of C7 on the unpaid invoice, whose [updated_at] is 60. *)
Lemma payment_date_of_pending_invoice :
  ∃ rec,
    transform_row (U:=ascii_tables) (F:=hundredths) 200 123456
      (select pending_invoice) = Some rec
    ∧ Src.updated_at pending_invoice = Some 60
    ∧ status_invoice rec = lit "pending"
    ∧ payment_date rec = None.
Proof.
  assert (∃ rec, transform_row (U:=ascii_tables) (F:=hundredths) 200 123456
                   (select pending_invoice) = Some rec) as [rec Hrec].
  { vm_compute. by eexists. }
  exists rec.
  assert (status_invoice rec = lit "pending") as Hstatus.
  { vm_compute in Hrec. by injection Hrec as <-. }
  split_and!; [done|done|done|].
  apply (payment_date_only_when_paid (U:=ascii_tables) (F:=hundredths)
           200 123456 pending_invoice rec Hrec).
  rewrite Hstatus. vm_compute. discriminate.
Defined.

(** Evaluation of C8 on the invoice paid by card, with type code 2. *)
Lemma payment_type_of_card_invoice :
  Src.type paid_invoice = Some 2
  ∧ Raw.payment_type (select paid_invoice) = Cartao_de_Credito.
Proof.
  split; [reflexivity|].
  by apply (payment_type_closed_lookup (U:=ascii_tables) (F:=hundredths)
              paid_invoice).
Defined.

(** C8 as stated fails: type code 2 does not give "Credit Card". *)
Lemma payment_type_2_is_not_Credit_Card :
  Src.type paid_invoice = Some 2
  ∧ Raw.payment_type (select paid_invoice) ≠ lit "Credit Card".
Proof. split; [reflexivity|]. vm_compute. discriminate. Qed.

(** ** Properties of the watermark and of the extraction query *)

Lemma sql_max_Some column m :
  sql_max column = Some m →
  Some m ∈ column ∧ ∀ t, Some t ∈ column → t ≤ m.
Proof.
  revert m. induction column as [|cell column IH]; intros m; simpl; [done|].
  destruct cell as [t|], (sql_max column) as [m'|] eqn:Hmax.
  - intros [= <-]. destruct (IH m' eq_refl) as [Hin Hle]. split.
    + destruct (Z.max_spec t m') as [[_ ->]|[_ ->]].
      * by apply list_elem_of_further.
      * apply list_elem_of_here.
    + intros t' [[= ->]|Hin']%elem_of_cons; [lia|].
      specialize (Hle t' Hin'). lia.
  - intros [= <-]. split; [apply list_elem_of_here|].
    intros t' [[= ->]|Hin']%elem_of_cons; [lia|].
    exfalso. clear IH. induction column as [|[?|] ? IH']; simpl in *.
    + by apply not_elem_of_nil in Hin'.
    + by destruct (sql_max column).
    + apply elem_of_cons in Hin' as [?|?]; [done|by apply IH'].
  - intros Hm. destruct (IH m Hm) as [Hin Hle]. split.
    + by apply list_elem_of_further.
    + intros t' [?|?]%elem_of_cons; [done|by apply Hle].
  - done.
Qed.

Lemma sql_max_None column :
  sql_max column = None ↔ ∀ cell, cell ∈ column → cell = None.
Proof.
  induction column as [|cell column IH]; simpl.
  - split; [|done]. by intros _ cell ?%not_elem_of_nil.
  - destruct cell as [t|].
    + split.
      * by destruct (sql_max column).
      * intros Hall. by specialize (Hall (Some t) (list_elem_of_here _ _)).
    + rewrite IH. split.
      * intros Hall cell [->|?]%elem_of_cons; [done|by apply Hall].
      * intros Hall cell ?. by apply Hall, list_elem_of_further.
Qed.

Lemma sql_gt_true updated w :
  sql_gt updated w = true ↔ ∃ t, updated = Some t ∧ w < t.
Proof.
  unfold sql_gt. destruct updated as [t|].
  - rewrite bool_decide_eq_true. split; [by exists t|]. by intros (? & [= <-] & ?).
  - split; [done|]. by intros (? & ? & _).
Qed.

Section QueryFacts.
Context {E : SourceEngine}.

(** The rows of the result are the SELECT lists of the source rows that
    satisfy the WHERE clause; ORDER BY and DISTINCT neither add a row nor
    lose the last copy of one. *)
Lemma billing_query_rows f source q :
  q ∈ billing_query f source
  ↔ ∃ r, r ∈ source ∧ where_clause f r = true ∧ q = select r.
Proof.
  unfold billing_query.
  rewrite elem_of_remove_dups, merge_sort_Permutation, list_elem_of_fmap.
  split.
  - intros (r & -> & [Hw Hr]%list_elem_of_filter). by exists r.
  - intros (r & Hr & Hw & ->). exists r. split; [done|].
    by apply list_elem_of_filter.
Qed.

End QueryFacts.

Section ResolverFacts.
Context {F : FloatColumn} {E : SourceEngine}.

(** C5, evaluated on the code. With no file at the location the filter is
    empty and the table is created empty. With one file that holds no row
    the branch for existing files is taken: the maximum read is NULL and
    the filter compares [updated_at] with its rendering, NaT. *)
Theorem resolver_on_empty_file :
  updated_at_filter (F:=F) [] = no_filter
  ∧ billing_status_summary_historical (F:=F) [] = []
  ∧ billing_status_summary_historical (F:=F) [[]] = []
  ∧ updated_at_filter (F:=F) [[]] = updated_after None
  ∧ ∀ r, where_clause (updated_at_filter (F:=F) [[]]) r
         = bool_decide (Src.deleted_at r = None) && after_NaT (Src.updated_at r).
Proof. by split_and!. Qed.

(** C6. When the glob finds files, the filter carries [MAX(updated_at)] of
    the rows of all files: a value some row holds and no row exceeds, NULL
    exactly when no row holds a value. With a maximum [m], the query
    returns the SELECT lists of exactly the source rows that are not
    soft-deleted and whose [updated_at] is strictly greater than [m]. When
    the glob finds no file, the filter is empty and the query returns the
    SELECT lists of exactly the source rows that are not soft-deleted. *)
Theorem watermark_bounds_extraction (source : list Src.row) :
  (∀ files : location, files ≠ [] →
     updated_at_filter files = updated_after (latest_updated_at files)
     ∧ (latest_updated_at files = None
        ↔ ∀ file r, file ∈ files → r ∈ file → updated_at r = None)
     ∧ ∀ m, latest_updated_at files = Some m →
         (∃ file r, file ∈ files ∧ r ∈ file ∧ updated_at r = Some m)
         ∧ (∀ file r t, file ∈ files → r ∈ file → updated_at r = Some t → t ≤ m)
         ∧ (∀ q, q ∈ billing_query (updated_at_filter files) source
                 ↔ ∃ r t, r ∈ source ∧ q = select r
                          ∧ Src.deleted_at r = None
                          ∧ Src.updated_at r = Some t ∧ m < t))
  ∧ updated_at_filter (F:=F) [] = no_filter
  ∧ (∀ q, q ∈ billing_query no_filter source
          ↔ ∃ r, r ∈ source ∧ q = select r ∧ Src.deleted_at r = None).
Proof.
  split; [|split; [done|]].
  - intros files Hfiles.
    assert (updated_at_filter files = updated_after (latest_updated_at files))
      as Hfilter by (by destruct files).
    split; [done|]. split.
    { unfold latest_updated_at, read_parquet. rewrite sql_max_None. split.
      - intros Hall file r Hfile Hr.
        apply (Hall (updated_at r)), list_elem_of_fmap.
        exists r. split; [done|]. apply list_elem_of_join. by exists file.
      - intros Hall cell (r & -> & (file & Hr & Hfile)%list_elem_of_join)%list_elem_of_fmap.
        by eapply Hall. }
    intros m Hm. pose proof Hm as Hmax.
    unfold latest_updated_at, read_parquet in Hmax.
    apply sql_max_Some in Hmax as [Hin Hle]. split_and!.
    + apply list_elem_of_fmap in Hin as (r & Hr & (file & ? & ?)%list_elem_of_join).
      by exists file, r.
    + intros file r t Hfile Hr Ht. apply Hle. rewrite <-Ht.
      apply list_elem_of_fmap. exists r. split; [done|].
      apply list_elem_of_join. by exists file.
    + intros q. rewrite Hfilter, Hm, billing_query_rows. unfold where_clause.
      split.
      * intros (r & Hr & [Hdel Hgt]%andb_true_iff & ->).
        apply bool_decide_eq_true in Hdel.
        apply sql_gt_true in Hgt as (t & Ht & Hlt). by exists r, t.
      * intros (r & t & Hr & -> & Hdel & Ht & Hlt). exists r.
        split_and!; [done| |done]. apply andb_true_iff. split.
        -- by apply bool_decide_eq_true.
        -- apply sql_gt_true. by exists t.
  - intros q. rewrite billing_query_rows. unfold where_clause. split.
    + intros (r & Hr & [Hdel _]%andb_true_iff & ->).
      apply bool_decide_eq_true in Hdel. by exists r.
    + intros (r & Hr & -> & Hdel). exists r. split_and!; [done| |done].
      rewrite andb_true_r. by apply bool_decide_eq_true.
Qed.

End ResolverFacts.

(** Evaluation of C6 on the two files, whose latest [updated_at] is 55, and
    on the sample source: the invoices modified at 60 and 70 are returned,
    the one modified at 40 and the soft-deleted one are not. *)
Lemma watermark_of_two_files :
  latest_updated_at two_files = Some 55
  ∧ updated_at_filter two_files = updated_after (Some 55)
  ∧ (∀ q, q ∈ billing_query (E:=rejects_NaT) (updated_at_filter two_files)
                sample_source
          ↔ ∃ r t, r ∈ sample_source ∧ q = select r
                   ∧ Src.deleted_at r = None
                   ∧ Src.updated_at r = Some t ∧ 55 < t)
  ∧ Raw.invoice_id <$> billing_query (E:=rejects_NaT)
                         (updated_at_filter two_files) sample_source
    = [1; 2].
Proof.
  assert (latest_updated_at two_files = Some 55) as Hm.
  { vm_compute. reflexivity. }
  destruct (proj1 (watermark_bounds_extraction (F:=hundredths) (E:=rejects_NaT)
                     sample_source) two_files) as (Hf & _ & Hall); [done|].
  destruct (Hall 55 Hm) as (_ & _ & Hq).
  split_and!; [done|by rewrite Hf, Hm|exact Hq|].
  vm_compute. reflexivity.
Defined.

(** One run on the two files and the sample source at time 200: the two
    stored rows stay, and the two invoices modified after 55 are appended
    with their amounts read from the formatted text. *)
Example run_two_files :
  fmap (M:=option) summary
    <$> run (U:=ascii_tables) (F:=hundredths) (E:=rejects_NaT)
          two_files sample_source 200
  = Some (Some [(lit "A", 1000, 100); (lit "C", 300, 100);
                (lit "1", 123456, 200); (lit "2", 500, 200)]).
Proof. vm_compute. reflexivity. Qed.

(** A run that finds nothing new writes nothing. *)
Example run_nothing_new :
  run (U:=ascii_tables) (F:=hundredths) (E:=rejects_NaT)
    two_files [old_invoice; deleted_invoice] 200
  = Some None.
Proof. vm_compute. reflexivity. Qed.

(** ** Properties of the merge *)

Section MergeFacts.
Context {F : FloatColumn}.
Implicit Types historical new : list InvoiceRecord.
Implicit Types t s : InvoiceRecord.

Lemma update_row_key new t : invoice_id (update_row new t) = invoice_id t.
Proof. unfold update_row. by repeat case_match. Qed.

Lemma update_row_no_match new t :
  invoice_id t ∉ invoice_id <$> new → update_row new t = t.
Proof.
  intros Hnot. unfold update_row.
  destruct (list_find _ new) as [[i s]|] eqn:Hfind; [|done].
  apply list_find_Some in Hfind as (Hs & Heq & _).
  destruct Hnot. apply list_elem_of_fmap. exists s. split; [done|].
  by eapply list_elem_of_lookup_2.
Qed.

Lemma update_row_match new t :
  invoice_id t ∈ invoice_id <$> new →
  ∃ s, s ∈ new ∧ invoice_id s = invoice_id t ∧ update_row new t = set_columns t s.
Proof.
  intros (s & Heq & Hin)%list_elem_of_fmap. unfold update_row.
  destruct (list_find _ new) as [[i s']|] eqn:Hfind.
  - apply list_find_Some in Hfind as (Hs & Heq' & _).
    exists s'. split_and!; [by eapply list_elem_of_lookup_2|done|done].
  - apply list_find_None in Hfind. rewrite Forall_forall in Hfind.
    by destruct (Hfind s Hin).
Qed.

Lemma update_row_unique new t s :
  NoDup (invoice_id <$> new) → s ∈ new → invoice_id s = invoice_id t →
  update_row new t = set_columns t s.
Proof.
  intros Hnd Hin Heq.
  destruct (update_row_match new t) as (s' & Hin' & Heq' & ->).
  { apply list_elem_of_fmap. by exists s. }
  f_equal. apply list_elem_of_lookup in Hin as [i Hi], Hin' as [j Hj].
  assert (i = j) as ->; [|congruence].
  eapply NoDup_lookup; [done| |]; rewrite list_lookup_fmap.
  - by rewrite Hi.
  - rewrite Hj. simpl. congruence.
Qed.

Lemma sql_update_keys historical new :
  invoice_id <$> sql_update historical new = invoice_id <$> historical.
Proof.
  unfold sql_update. rewrite <-list_fmap_compose.
  apply list_fmap_ext. intros i t _. apply update_row_key.
Qed.

Lemma matched_iff_key s historical :
  Exists (same_invoice s) historical ↔ invoice_id s ∈ invoice_id <$> historical.
Proof.
  rewrite Exists_exists, list_elem_of_fmap. unfold same_invoice.
  split; intros (t & ? & ?); exists t; by split.
Qed.

(** The INSERT reads the updated table, and selects what it would select
    on the table as it was before the UPDATE. *)
Lemma upsert_snapshot historical new :
  upsert historical new
  = sql_update historical new
    ++ filter (λ s, invoice_id s ∉ invoice_id <$> historical) new.
Proof.
  unfold upsert, sql_insert. f_equal. apply list_filter_iff. intros s.
  by rewrite matched_iff_key, sql_update_keys.
Qed.

Lemma set_columns_takes t s : takes_set_list_from (set_columns t s) s.
Proof. by repeat split. Qed.


(** C2. When the table holds no key twice and the delta holds no key twice,
    the table after the merge holds no key twice. *)
Theorem upsert_key_unique historical new :
  NoDup (invoice_id <$> historical) →
  NoDup (invoice_id <$> new) →
  NoDup (invoice_id <$> upsert historical new).
Proof.
  intros Hh Hn. rewrite upsert_snapshot, fmap_app, sql_update_keys.
  apply NoDup_app. split_and!; [done| |].
  - intros k Hk (s & -> & Hs)%list_elem_of_fmap.
    by apply list_elem_of_filter in Hs as [Hnot _].
  - eapply sublist_NoDup; [exact Hn|].
    apply fmap_sublist, sublist_filter.
Qed.


(** C4. A stored row whose key is not in the delta is in its place after
    the merge, equal in every column. *)
Theorem upsert_untouched historical new i t :
  historical !! i = Some t →
  invoice_id t ∉ invoice_id <$> new →
  upsert historical new !! i = Some t.
Proof.
  intros Ht Hnot. rewrite upsert_snapshot, lookup_app_l.
  - unfold sql_update. rewrite list_lookup_fmap, Ht. simpl.
    by rewrite update_row_no_match.
  - unfold sql_update. rewrite length_fmap. by eapply lookup_lt_Some.
Qed.

Lemma set_columns_self t : set_columns t t = t.
Proof. by destruct t. Qed.

Lemma set_columns_twice t s : set_columns (set_columns t s) s = set_columns t s.
Proof. done. Qed.

Lemma filter_none {A} (P : A → Prop) `{∀ x, Decision (P x)} (l : list A) :
  (∀ x, x ∈ l → ¬ P x) → filter P l = [].
Proof.
  induction l as [|x l IH]; intros Hl; [done|].
  rewrite filter_cons_False by apply Hl, list_elem_of_here.
  apply IH. intros y Hy. by apply Hl, list_elem_of_further.
Qed.


(** A row of the merged table is left as it is by a second update from the
    same delta. *)
Lemma update_row_again historical new t :
  NoDup (invoice_id <$> new) →
  t ∈ upsert historical new → update_row new t = t.
Proof.
  intros Hnd. rewrite upsert_snapshot, elem_of_app.
  intros [(t0 & -> & Ht0)%list_elem_of_fmap|[_ Hin]%list_elem_of_filter].
  - destruct (decide (invoice_id t0 ∈ invoice_id <$> new)) as [Hm|Hm].
    + apply update_row_match in Hm as (s & Hs & Heq & ->).
      by rewrite (update_row_unique new _ s).
    + rewrite (update_row_no_match new t0) by done.
      by apply update_row_no_match.
  - rewrite (update_row_unique new t t) by done. apply set_columns_self.
Qed.

(** Merging the same delta a second time changes nothing: every key of the
    delta is in the table by then, and the update writes the values that are
    already there. *)
Theorem upsert_idempotent historical new :
  NoDup (invoice_id <$> new) →
  upsert (upsert historical new) new = upsert historical new.
Proof.
  intros Hnd. rewrite (upsert_snapshot (upsert historical new)).
  rewrite filter_none, app_nil_r.
  - unfold sql_update. rewrite <-(list_fmap_id (upsert historical new)) at 2.
    apply list_fmap_ext. intros i t Ht.
    eapply update_row_again; [done|]. by eapply list_elem_of_lookup_2.
  - intros s Hs Hnot. apply Hnot. rewrite upsert_snapshot, fmap_app, elem_of_app.
    rewrite sql_update_keys.
    destruct (decide (invoice_id s ∈ invoice_id <$> historical)); [by left|].
    right. apply list_elem_of_fmap. exists s. split; [done|].
    by apply list_elem_of_filter.
Qed.


End MergeFacts.


(** Evaluation of C2 on the store {A} and the delta {A, B}. *)
Lemma upsert_key_unique_A_B :
  NoDup (invoice_id <$> upsert store_A delta_A_B).
Proof.
  apply (upsert_key_unique store_A delta_A_B);
    apply (bool_decide_unpack _); vm_compute; exact I.
Defined.



(** Evaluation of C4: the stored row C is not in the delta {A, B} and stays
    as it was, in its place. *)
Lemma upsert_untouched_C :
  upsert (store_A ++ [sample "C" 300 55 100]) delta_A_B !! 1%nat
  = Some (sample "C" 300 55 100).
Proof.
  apply (upsert_untouched (store_A ++ [sample "C" 300 55 100]) delta_A_B 1).
  - reflexivity.
  - apply (bool_decide_unpack _). vm_compute. exact I.
Defined.

(** Evaluation of the idempotence on the store {A} and the delta {A, B}. *)
Lemma upsert_idempotent_A_B :
  upsert (upsert store_A delta_A_B) delta_A_B = upsert store_A delta_A_B.
Proof.
  apply (upsert_idempotent store_A delta_A_B).
  apply (bool_decide_unpack _). vm_compute. exact I.
Defined.

(** ** Properties of a whole run *)

Section RunFacts.
Context {U : UnicodeTables} {F : FloatColumn} {E : SourceEngine}.



End RunFacts.


(** ** Further properties of the text functions *)

Section CleaningFacts.
Context {U : UnicodeTables}.
Implicit Types x y : pystr.

Lemma is_space_SPACE : is_space SPACE = true.
Proof. reflexivity. Qed.


Lemma collapse_spaces b x :
  Forall (λ c, is_space c = true → c = SPACE) (collapse b x).
Proof.
  revert b. induction x as [|c x IH]; intros b; simpl; [done|].
  destruct (is_space c) eqn:Hc; [destruct b|]; auto.
  constructor; [congruence|done].
Qed.

Lemma collapse_true_head x c :
  head (collapse true x) = Some c → is_space c = false.
Proof.
  induction x as [|a x IH]; simpl; [done|].
  destruct (is_space a) eqn:Ha; [done|]. simpl. congruence.
Qed.

Lemma collapse_adjacent b x pre c c' post :
  collapse b x = pre ++ c :: c' :: post →
  is_space c = true → is_space c' = false.
Proof.
  revert b pre. induction x as [|a x IH]; intros b pre; simpl.
  { by destruct pre. }
  destruct (is_space a) eqn:Ha; [destruct b|].
  - apply IH.
  - destruct pre as [|p pre]; simpl.
    + intros [= <- Hx] _. apply (collapse_true_head x). by rewrite Hx.
    + intros [= _ Hx]. by eapply IH.
  - destruct pre as [|p pre]; simpl.
    + intros [= <- _]. congruence.
    + intros [= _ Hx]. by eapply IH.
Qed.

Lemma sub_spaces_single_spaced x : single_spaced (sub_spaces x).
Proof.
  split; [apply collapse_spaces|].
  intros pre c c' post. apply collapse_adjacent.
Qed.

Lemma collapse_collapse x :
  collapse false (collapse false x) = collapse false x
  ∧ collapse false (collapse true x) = collapse true x
  ∧ collapse true (collapse true x) = collapse true x.
Proof.
  induction x as [|a x (IH1 & IH2 & IH3)]; [done|]. cbn [collapse].
  destruct (is_space a) eqn:Ha; cbn [collapse].
  - rewrite is_space_SPACE. by rewrite IH3.
  - by rewrite Ha, IH1.
Qed.

Lemma collapse_keeps_others b x :
  filter (λ c, is_space c = false) (collapse b x)
  = filter (λ c, is_space c = false) x.
Proof.
  revert b. induction x as [|a x IH]; intros b; simpl; [done|].
  destruct (is_space a) eqn:Ha.
  - rewrite (filter_cons_False _ a) by congruence. destruct b; [done|].
    rewrite filter_cons_False; [done|]. by rewrite is_space_SPACE.
  - by rewrite !filter_cons_True, IH.
Qed.













(** The description with its white space collapsed (the column
    [description_clean], and the text [billing_period] is derived from):
    its white space is single spaces, the other characters are kept in
    their order, collapsing it again changes nothing, and the billing
    period of the collapsed text is that of the description. *)
Theorem sub_spaces_normal_form x :
  single_spaced (sub_spaces x)
  ∧ filter (λ c, is_space c = false) (sub_spaces x)
    = filter (λ c, is_space c = false) x
  ∧ sub_spaces (sub_spaces x) = sub_spaces x
  ∧ derive_billing_period (Some (sub_spaces x)) = derive_billing_period (Some x).
Proof.
  assert (sub_spaces (sub_spaces x) = sub_spaces x) as Hidem.
  { apply collapse_collapse. }
  split_and!.
  - apply sub_spaces_single_spaced.
  - apply collapse_keeps_others.
  - done.
  - unfold derive_billing_period. cbn [mbind option_bind]. by rewrite Hidem.
Qed.


(** The billing period is empty or 23 characters long: two tokens of the
    form DD/MM/YYYY, the first two the collapsed description holds one
    behind the other, joined by " - ". *)
Theorem billing_period_shape d p :
  derive_billing_period (Some d) = Some p →
  p = []
  ∨ ∃ a b pre mid post,
      date_token a ∧ date_token b
      ∧ sub_spaces d = pre ++ a ++ mid ++ b ++ post
      ∧ p = a ++ lit " - " ++ b
      ∧ length p = 23%nat.
Proof.
  unfold derive_billing_period. cbn [mbind option_bind].
  pose proof (findall_tokens (sub_spaces d)) as Htok.
  destruct (findall (sub_spaces d)) as [|a [|b rest]]; simpl;
    [intros [= <-]; by left..|].
  intros [= <-]. right.
  inversion Htok as [|pre a' post1 ts Ha _ Htok1 Hx]; subst.
  inversion Htok1 as [|mid b' post ts' Hb _ _ Hy]; subst.
  exists a, b, pre, mid, post. split_and!; [done..|].
  rewrite length_app. simpl.
  by rewrite (date_token_length a), (date_token_length b).
Qed.

End CleaningFacts.

(** Evaluation of the billing period's shape on the description of the
    unpaid invoice. *)
Lemma billing_period_shape_sample :
  lit "01/01/2024 - 31/01/2024" = []
  ∨ ∃ a b pre mid post,
      date_token (U:=ascii_tables) a ∧ date_token (U:=ascii_tables) b
      ∧ sub_spaces (U:=ascii_tables)
          (lit "Invoice for period 01/01/2024 31/01/2024 extra text")
        = pre ++ a ++ mid ++ b ++ post
      ∧ lit "01/01/2024 - 31/01/2024" = a ++ lit " - " ++ b
      ∧ length (lit "01/01/2024 - 31/01/2024") = 23%nat.
Proof.
  apply (billing_period_shape (U:=ascii_tables)
           (lit "Invoice for period 01/01/2024 31/01/2024 extra text")).
  vm_compute. reflexivity.
Defined.

(** ** Keys of the extracted rows *)

Lemma uint_str_inj u u' : uint_str u = uint_str u' → u = u'.
Proof.
  revert u'. induction u as [|u IH|u IH|u IH|u IH|u IH|u IH|u IH|u IH|u IH|u IH];
    intros [|u'|u'|u'|u'|u'|u'|u'|u'|u'|u']; simpl; try discriminate;
    [done|..]; intros [= Heq]; f_equal; by apply IH.
Qed.

Lemma dec_inj n n' : dec n = dec n' → n = n'.
Proof. intros Heq%uint_str_inj. by apply DecimalN.Unsigned.to_uint_inj. Qed.

(** Two integers with the same text are the same integer. *)
Lemma str_int_inj z z' : str_int z = str_int z' → z = z'.
Proof.
  unfold str_int.
  pose proof (uint_str_digits (N.to_uint (Z.abs_N z))) as Hz.
  pose proof (uint_str_digits (N.to_uint (Z.abs_N z'))) as Hz'.
  fold (dec (Z.abs_N z)) in Hz. fold (dec (Z.abs_N z')) in Hz'.
  repeat case_bool_decide.
  - intros [= Heq%dec_inj]. lia.
  - intros Heq. rewrite <-Heq in Hz'.
    apply Forall_cons in Hz' as [Hm _]. unfold MINUS in Hm. lia.
  - intros Heq. rewrite Heq in Hz.
    apply Forall_cons in Hz as [Hm _]. unfold MINUS in Hm. lia.
  - intros Heq%dec_inj. lia.
Qed.

Lemma remove_dups_sublist `{EqDecision A} (l : list A) :
  remove_dups l `sublist_of` l.
Proof.
  induction l as [|x l IH]; simpl; [done|].
  case_decide; [by apply sublist_cons|by apply sublist_skip].
Qed.

Lemma zip_snd_take {A B} (l : list A) (k : list B) :
  (zip l k).*2 = take (length l) k.
Proof.
  revert k. induction l as [|a l IH]; intros [|b k]; simpl; [done..|].
  by rewrite IH.
Qed.

Section KeyFacts.
Context {U : UnicodeTables} {F : FloatColumn} {E : SourceEngine}.

Lemma billing_query_ids f (source : list Src.row) :
  NoDup (Src.id <$> source) →
  NoDup (Raw.invoice_id <$> billing_query f source).
Proof.
  intros Hnd. unfold billing_query.
  eapply sublist_NoDup; [|apply fmap_sublist, remove_dups_sublist].
  rewrite merge_sort_Permutation, <-list_fmap_compose.
  eapply sublist_NoDup; [exact Hnd|].
  erewrite list_fmap_ext; [apply fmap_sublist, sublist_filter|done].
Qed.

Lemma transform_row_fields now amt (q : Raw.row) rec :
  transform_row now amt q = Some rec →
  invoice_id rec = str_int (Raw.invoice_id q)
  ∧ updated_at rec = Raw.updated_at q
  ∧ inserted_at rec = now
  ∧ amount rec = amt
  ∧ is_Some (Raw.description q).
Proof.
  unfold transform_row.
  destruct (Raw.description q) as [d|]; [|done].
  destruct (derive_billing_period (Some d)); [|done].
  intros [= <-]. by split_and!.
Qed.

(** The records are those of a prefix of the rows, one by one; the prefix
    is all rows when the conversion answers one amount per cell. *)
Lemma transform_Some now (rows : list Raw.row) final :
  transform now rows = Some final →
  ∃ amounts,
    to_numeric (fmap strip_commas <$> (Raw.amount <$> rows)) = Some amounts
    ∧ Forall2 (λ q rec, ∃ amt, transform_row now amt q = Some rec)
              (take (length amounts) rows) final.
Proof.
  unfold transform. destruct (to_numeric _) as [amounts|]; [|done].
  cbn [mbind option_bind]. intros Hall%mapM_Some. exists amounts.
  split; [done|]. rewrite <-zip_snd_take. apply Forall2_fmap_l.
  eapply Forall2_impl; [exact Hall|].
  intros [amt q] rec Hrow. by exists amt.
Qed.

Lemma transform_Some_all now (rows : list Raw.row) final :
  keeps_length F → transform now rows = Some final →
  Forall2 (λ q rec, ∃ amt, transform_row now amt q = Some rec) rows final.
Proof.
  intros Hlen (amounts & Hnum & Hall)%transform_Some.
  apply Hlen in Hnum. rewrite !length_fmap in Hnum.
  by rewrite Hnum, firstn_all in Hall.
Qed.

Lemma transform_elem now (rows : list Raw.row) final rec :
  transform now rows = Some final → rec ∈ final →
  ∃ amt q, q ∈ rows ∧ transform_row now amt q = Some rec.
Proof.
  intros (amounts & _ & Hall)%transform_Some Hrec.
  apply list_elem_of_lookup in Hrec as [i Hi].
  destruct (Forall2_lookup_r _ _ _ _ _ Hall Hi) as (q & Hq & amt & Hrow).
  exists amt, q. split; [|done].
  apply lookup_take_Some in Hq as [Hq _]. by eapply list_elem_of_lookup_2.
Qed.

Lemma transform_keys now (rows : list Raw.row) final :
  NoDup (Raw.invoice_id <$> rows) → transform now rows = Some final →
  NoDup (invoice_id <$> final).
Proof.
  intros Hnd (amounts & _ & Hall)%transform_Some.
  assert (invoice_id <$> final
          = str_int <$> (Raw.invoice_id <$> take (length amounts) rows)) as ->.
  { induction Hall as [|q rec qs recs (amt & Hrow) _ IH]; [done|].
    apply transform_row_fields in Hrow as (Hkey & _).
    rewrite !fmap_cons, Hkey. by rewrite IH. }
  apply NoDup_fmap_2_strong.
  - intros z z' _ _. apply str_int_inj.
  - eapply sublist_NoDup; [exact Hnd|]. apply fmap_sublist, sublist_take.
Qed.

(** When no invoice key occurs twice in the joined source, no
    [invoice_id] occurs twice in the transformed result of the query,
    whatever the filter. *)
Theorem delta_keys_distinct f (source : list Src.row) now final :
  NoDup (Src.id <$> source) →
  transform now (billing_query f source) = Some final →
  NoDup (invoice_id <$> final).
Proof.
  intros Hnd Hfinal. eapply transform_keys; [|done].
  by apply billing_query_ids.
Qed.

End KeyFacts.

(** Evaluation on the sample source, whose four invoices have the keys 1
    to 4. *)
Lemma delta_keys_distinct_sample :
  ∃ final,
    transform (U:=ascii_tables) (F:=hundredths) 200
      (billing_query (E:=rejects_NaT) no_filter sample_source) = Some final
    ∧ NoDup (invoice_id <$> final).
Proof.
  assert (∃ final, transform (U:=ascii_tables) (F:=hundredths) 200
            (billing_query (E:=rejects_NaT) no_filter sample_source)
          = Some final) as [final Hfinal].
  { vm_compute. by eexists. }
  exists final. split; [done|].
  apply (delta_keys_distinct (U:=ascii_tables) (F:=hundredths) (E:=rejects_NaT)
           no_filter sample_source 200 final); [|done].
  apply (bool_decide_unpack _). vm_compute. exact I.
Defined.

(** ** Further properties of the merge *)

Section MergeMore.
Context {F : FloatColumn}.
Implicit Types historical new : list InvoiceRecord.
Implicit Types t s rec : InvoiceRecord.

Lemma NoDup_upsert_keys historical new :
  NoDup (invoice_id <$> historical) → NoDup (invoice_id <$> new) →
  NoDup (invoice_id <$> upsert historical new).
Proof.
  intros Hh Hn. rewrite upsert_snapshot, fmap_app, sql_update_keys.
  apply NoDup_app. split_and!; [done| |].
  - intros k Hk (s & -> & Hs)%list_elem_of_fmap.
    by apply list_elem_of_filter in Hs as [Hnot _].
  - eapply sublist_NoDup; [exact Hn|].
    apply fmap_sublist, sublist_filter.
Qed.

Lemma update_row_cases new t :
  update_row new t = t
  ∨ ∃ s, s ∈ new ∧ invoice_id s = invoice_id t
         ∧ update_row new t = set_columns t s.
Proof.
  destruct (decide (invoice_id t ∈ invoice_id <$> new)) as [Hin|Hnot].
  - right. by apply update_row_match.
  - left. by apply update_row_no_match.
Qed.

Lemma upsert_elem historical new rec :
  rec ∈ upsert historical new →
  rec ∈ historical ∨ rec ∈ new
  ∨ ∃ t s, t ∈ historical ∧ s ∈ new ∧ invoice_id s = invoice_id t
           ∧ rec = set_columns t s.
Proof.
  rewrite upsert_snapshot, elem_of_app.
  intros [(t & -> & Ht)%list_elem_of_fmap|[_ Hin]%list_elem_of_filter].
  - destruct (update_row_cases new t) as [->|(s & Hs & Heq & ->)]; [by left|].
    right. right. by exists t, s.
  - by right; left.
Qed.

Lemma upsert_reflects historical new s :
  NoDup (invoice_id <$> new) → s ∈ new →
  ∃ t', t' ∈ upsert historical new
        ∧ invoice_id t' = invoice_id s ∧ takes_set_list_from t' s.
Proof.
  intros Hnd Hs. rewrite upsert_snapshot.
  destruct (decide (invoice_id s ∈ invoice_id <$> historical)) as [Hin|Hnot].
  - apply list_elem_of_fmap in Hin as (t & Heq & Ht).
    exists (set_columns t s). split_and!; [|done|apply set_columns_takes].
    apply elem_of_app. left. apply list_elem_of_fmap. exists t.
    split; [|done]. symmetry. by apply update_row_unique.
  - exists s. split_and!; [|done|by repeat split].
    apply elem_of_app. right. by apply list_elem_of_filter.
Qed.

(** Without the condition on the delta: some row of the merged table
    carries the [updated_at] of a delta row. *)
Lemma upsert_carries_delta historical new s :
  s ∈ new →
  ∃ t' s', t' ∈ upsert historical new ∧ s' ∈ new
           ∧ updated_at t' = updated_at s'.
Proof.
  intros Hs. rewrite upsert_snapshot.
  destruct (decide (invoice_id s ∈ invoice_id <$> historical)) as [Hin|Hnot].
  - apply list_elem_of_fmap in Hin as (t & Heq & Ht).
    destruct (update_row_match new t) as (s' & Hs' & _ & Hup).
    { rewrite <-Heq. apply list_elem_of_fmap. by exists s. }
    exists (update_row new t), s'. split_and!; [|done|by rewrite Hup].
    apply elem_of_app. left. apply list_elem_of_fmap. by exists t.
  - exists s, s. split_and!; [|done..].
    apply elem_of_app. right. by apply list_elem_of_filter.
Qed.

Lemma sql_max_ge (column : list (option Z)) (w : Z) :
  Some w ∈ column → ∃ m, sql_max column = Some m ∧ w ≤ m.
Proof.
  intros Hin. destruct (sql_max column) as [m|] eqn:Hmax.
  - exists m. split; [done|]. by apply (sql_max_Some column m).
  - by specialize (proj1 (sql_max_None column) Hmax (Some w) Hin).
Qed.


End MergeMore.


(** ** Further properties of a whole run *)

Lemma hundredths_keeps_length : keeps_length hundredths.
Proof.
  intros column out Hout. symmetry.
  exact (length_mapM (λ cell, cell ≫= read_hundredths) column out Hout).
Qed.

Lemma hundredths_accepts_empty : accepts_empty hundredths.
Proof. reflexivity. Qed.

Section PipelineFacts.
Context {U : UnicodeTables} {F : FloatColumn} {E : SourceEngine}.
Implicit Types files : location.
Implicit Types source : list Src.row.
Implicit Types table final : list InvoiceRecord.

Lemma historical_read files :
  billing_status_summary_historical files = read_parquet files.
Proof. by destruct files. Qed.

Lemma read_parquet_one table : read_parquet [table] = table.
Proof. unfold read_parquet. simpl. apply app_nil_r. Qed.

Lemma run_Some files source now table :
  run files source now = Some (Some table) →
  ∃ final,
    transform now (billing_query (updated_at_filter files) source) = Some final
    ∧ final ≠ []
    ∧ table = upsert (read_parquet files) final.
Proof.
  unfold run. cbn zeta.
  destruct (transform now _) as [final|]; [|done]. cbn [mbind option_bind].
  destruct final as [|rec final]; [done|]. intros [= <-].
  exists (rec :: final). by rewrite historical_read.
Qed.

Lemma where_clause_not_deleted f (r : Src.row) :
  where_clause f r = true → Src.deleted_at r = None.
Proof.
  unfold where_clause. intros [Hdel _]%andb_true_iff.
  by apply bool_decide_eq_true in Hdel.
Qed.

Lemma where_clause_after m (r : Src.row) :
  where_clause (updated_after (Some m)) r = true
  ↔ Src.deleted_at r = None ∧ ∃ w, Src.updated_at r = Some w ∧ m < w.
Proof.
  unfold where_clause.
  by rewrite andb_true_iff, bool_decide_eq_true, sql_gt_true.
Qed.



(** Every record of the transformed result comes from a source row the
    WHERE clause accepts. *)
Lemma final_from_source f source now final rec :
  transform now (billing_query f source) = Some final → rec ∈ final →
  ∃ r, r ∈ source ∧ where_clause f r = true
       ∧ invoice_id rec = str_int (Src.id r)
       ∧ updated_at rec = Src.updated_at r
       ∧ inserted_at rec = now.
Proof.
  intros Hfinal Hrec.
  destruct (transform_elem _ _ _ _ Hfinal Hrec) as (amt & q & Hq & Hrow).
  apply billing_query_rows in Hq as (r & Hr & Hw & ->).
  apply transform_row_fields in Hrow as (? & ? & ? & _).
  by exists r.
Qed.

(** Every source row the WHERE clause accepts has its record in the
    transformed result, when the conversion answers one amount per cell. *)
Lemma source_in_final f source now final (r : Src.row) :
  keeps_length F →
  transform now (billing_query f source) = Some final →
  r ∈ source → where_clause f r = true →
  ∃ rec, rec ∈ final
         ∧ invoice_id rec = str_int (Src.id r)
         ∧ updated_at rec = Src.updated_at r.
Proof.
  intros Hlen Hfinal Hr Hw.
  assert (select r ∈ billing_query f source) as Hq.
  { apply billing_query_rows. by exists r. }
  apply list_elem_of_lookup in Hq as [i Hi].
  pose proof (transform_Some_all _ _ _ Hlen Hfinal) as Hall.
  destruct (Forall2_lookup_l _ _ _ _ _ Hall Hi) as (rec & Hrec & amt & Hrow).
  apply transform_row_fields in Hrow as (? & ? & _).
  exists rec. split_and!; [by eapply list_elem_of_lookup_2|done..].
Qed.

(** A run keeps the keys of the table distinct: when no [invoice_id]
    occurs twice in the files and no invoice key occurs twice in the joined
    source, no [invoice_id] occurs twice in the exported table. *)
Theorem run_keys_distinct files source now table :
  NoDup (invoice_id <$> read_parquet files) →
  NoDup (Src.id <$> source) →
  run files source now = Some (Some table) →
  NoDup (invoice_id <$> table).
Proof.
  intros Hstore Hsrc (final & Hfinal & _ & ->)%run_Some.
  apply NoDup_upsert_keys; [done|].
  eapply transform_keys; [|done]. by apply billing_query_ids.
Qed.

(** What a run exports holds the stored rows first, no key lost and in
    their order. Every row of it is a stored row as it was, or carries the
    key and the [updated_at] of a source row that is not soft-deleted and
    the time of the run in [inserted_at]. A stored row whose key no accepted
    source row has stays in its place, equal in every column. *)
Theorem run_provenance files source now table :
  run files source now = Some (Some table) →
  invoice_id <$> read_parquet files `prefix_of` invoice_id <$> table
  ∧ (∀ rec, rec ∈ table →
        rec ∈ read_parquet files
        ∨ ∃ r, r ∈ source ∧ Src.deleted_at r = None
               ∧ invoice_id rec = str_int (Src.id r)
               ∧ updated_at rec = Src.updated_at r
               ∧ inserted_at rec = now)
  ∧ (∀ i t, read_parquet files !! i = Some t →
        (∀ r, r ∈ source → where_clause (updated_at_filter files) r = true →
              str_int (Src.id r) ≠ invoice_id t) →
        table !! i = Some t).
Proof.
  intros (final & Hfinal & _ & ->)%run_Some. split_and!.
  - rewrite upsert_snapshot, fmap_app, sql_update_keys. by eexists.
  - intros rec [Hold|[Hnew|(t & s & Ht & Hs & Heq & ->)]]%upsert_elem.
    + by left.
    + right. destruct (final_from_source _ _ _ _ _ Hfinal Hnew)
        as (r & Hr & Hw%where_clause_not_deleted & ?). by exists r.
    + right. destruct (final_from_source _ _ _ _ _ Hfinal Hs)
        as (r & Hr & Hw%where_clause_not_deleted & Hkey & Hup & Hins).
      exists r. split_and!; [done..| | |]; simpl; congruence.
  - intros i t Ht Hfresh. rewrite upsert_snapshot, lookup_app_l.
    2:{ unfold sql_update. rewrite length_fmap. by eapply lookup_lt_Some. }
    unfold sql_update. rewrite list_lookup_fmap, Ht. simpl. f_equal.
    apply update_row_no_match.
    intros (s & Heq & Hs)%list_elem_of_fmap.
    destruct (final_from_source _ _ _ _ _ Hfinal Hs) as (r & Hr & Hw & Hkey & _).
    apply (Hfresh r Hr Hw). congruence.
Qed.

(** Every row of the transformed result of a filtered query is later than
    the watermark, so the merged table holds a later row. *)
Lemma upsert_max_advances f m source now final historical :
  f = updated_after (Some m) →
  transform now (billing_query f source) = Some final → final ≠ [] →
  ∃ m', sql_max (updated_at <$> upsert historical final) = Some m' ∧ m < m'.
Proof.
  intros -> Hfinal Hne. destruct final as [|s final]; [done|].
  destruct (upsert_carries_delta historical (s :: final) s)
    as (t' & s' & Ht' & Hs' & Hup); [apply list_elem_of_here|].
  destruct (final_from_source _ _ _ _ _ Hfinal Hs')
    as (r & _ & (_ & w & Hw & Hlt)%where_clause_after & _ & Hup' & _).
  destruct (sql_max_ge (updated_at <$> upsert historical (s :: final)) w)
    as (m' & Hmax & Hle).
  { apply list_elem_of_fmap. exists t'. split; [congruence|done]. }
  exists m'. split; [done|lia].
Qed.

(** The watermark advances: when a run that read the watermark [m] exports
    a table, the latest [updated_at] of that table is strictly later than
    [m]. *)
Theorem run_watermark_advances files source now table m :
  latest_updated_at files = Some m →
  run files source now = Some (Some table) →
  ∃ m', latest_updated_at [table] = Some m' ∧ m < m'.
Proof.
  intros Hm (final & Hfinal & Hne & ->)%run_Some.
  unfold latest_updated_at at 1. rewrite read_parquet_one.
  eapply upsert_max_advances; [|done..].
  destruct files; [done|]. simpl. by rewrite Hm.
Qed.

Lemma billing_query_nothing f source :
  (∀ r, r ∈ source → where_clause f r = false) → billing_query f source = [].
Proof.
  intros Hnone. unfold billing_query. rewrite filter_none; [done|].
  intros r Hr. by rewrite (Hnone r Hr).
Qed.

Lemma run_nothing files source now :
  accepts_empty F →
  billing_query (updated_at_filter files) source = [] →
  run files source now = Some None.
Proof. intros Hempty Hq. unfold run. cbn zeta. rewrite Hq. unfold transform. simpl. by rewrite Hempty. Qed.

(** A run that finds no source row to extract ends without an exception
    and exports nothing. *)
Theorem run_nothing_to_process files source now :
  accepts_empty F →
  (∀ r, r ∈ source → where_clause (updated_at_filter files) r = false) →
  run files source now = Some None.
Proof.
  intros Hempty Hnone. apply run_nothing; [done|].
  by apply billing_query_nothing.
Qed.

(** Running again on the exported table finds nothing new. When a run on
    no file, or on files with a watermark, exports a table that holds an
    [updated_at], the next run on that table and the same source (no
    invoice key twice) extracts no row and exports nothing. *)
Theorem second_run_exports_nothing files source now now' table :
  keeps_length F → accepts_empty F →
  NoDup (Src.id <$> source) →
  files = [] ∨ is_Some (latest_updated_at files) →
  run files source now = Some (Some table) →
  is_Some (latest_updated_at [table]) →
  run [table] source now' = Some None.
Proof.
  intros Hlen Hempty Hsrc Hfiles Hrun [m' Hm'].
  pose proof Hrun as (final & Hfinal & Hne & ->)%run_Some.
  apply run_nothing; [done|]. apply billing_query_nothing.
  intros r Hr. cbn [updated_at_filter]. rewrite Hm'.
  destruct (where_clause (updated_after (Some m')) r) eqn:Hw; [|done].
  exfalso. apply where_clause_after in Hw as (Hdel & w & Hw & Hlt).
  unfold latest_updated_at in Hm'. rewrite read_parquet_one in Hm'.
  apply sql_max_Some in Hm' as [_ Hmax].
  assert (where_clause (updated_at_filter files) r = true → w ≤ m') as Hseen.
  { intros Hacc.
    destruct (source_in_final _ _ _ _ r Hlen Hfinal Hr Hacc)
      as (rec & Hrec & _ & Hup).
    destruct (upsert_reflects (read_parquet files) final rec)
      as (t' & Ht' & _ & Htakes); [|done|].
    { eapply transform_keys; [|done]. by apply billing_query_ids. }
    apply Hmax, list_elem_of_fmap. exists t'. split; [|done].
    destruct Htakes as (_&_&_&_&_&_&_&->&_). congruence. }
  destruct Hfiles as [->|[m Hm]].
  - enough (w ≤ m') by lia. apply Hseen. unfold where_clause. simpl.
    rewrite andb_true_r. by apply bool_decide_eq_true.
  - assert (updated_at_filter files = updated_after (Some m)) as Hf.
    { destruct files; [done|]. simpl. by rewrite Hm. }
    destruct (decide (m < w)) as [Hnew|Hold].
    + enough (w ≤ m') by lia. apply Hseen. rewrite Hf.
      apply where_clause_after. split; [done|by exists w].
    + destruct (upsert_max_advances _ m source now final (read_parquet files) Hf Hfinal Hne)
        as (m'' & Hmax' & Hlt').
      apply sql_max_Some in Hmax' as [Hin' _].
      specialize (Hmax m'' Hin'). lia.
Qed.


(** A run exports every source row the WHERE clause accepts: the exported
    table holds a row with its key and its [updated_at], given that no
    invoice key occurs twice in the joined source and that the conversion
    answers one amount per cell. *)
Theorem run_exports_accepted_rows files source now table (r : Src.row) :
  keeps_length F →
  NoDup (Src.id <$> source) →
  run files source now = Some (Some table) →
  r ∈ source → where_clause (updated_at_filter files) r = true →
  ∃ rec, rec ∈ table
         ∧ invoice_id rec = str_int (Src.id r)
         ∧ updated_at rec = Src.updated_at r
         ∧ inserted_at rec = now.
Proof.
  intros Hlen Hsrc (final & Hfinal & _ & ->)%run_Some Hr Hw.
  destruct (source_in_final _ _ _ _ r Hlen Hfinal Hr Hw)
    as (s & Hs & Hkey & Hup).
  destruct (final_from_source _ _ _ _ _ Hfinal Hs) as (_ & _ & _ & _ & _ & Hins).
  destruct (upsert_reflects (read_parquet files) final s)
    as (rec & Hrec & Hkey' & Htakes); [|done|].
  { eapply transform_keys; [|done]. by apply billing_query_ids. }
  exists rec. destruct Htakes as (_&_&_&_&_&_&_&Hup'&Hins').
  split_and!; [done|congruence..].
Qed.


End PipelineFacts.

(** Evaluation of the run on the two files and the sample source. *)
Lemma run_two_files_exports :
  ∃ table, run (U:=ascii_tables) (F:=hundredths) (E:=rejects_NaT)
             two_files sample_source 200 = Some (Some table).
Proof. vm_compute. by eexists. Defined.

Lemma run_keys_distinct_two_files :
  ∃ table,
    run (U:=ascii_tables) (F:=hundredths) (E:=rejects_NaT)
      two_files sample_source 200 = Some (Some table)
    ∧ NoDup (invoice_id <$> table).
Proof.
  destruct run_two_files_exports as [table Hrun]. exists table.
  split; [done|].
  apply (run_keys_distinct (U:=ascii_tables) (F:=hundredths) (E:=rejects_NaT)
           two_files sample_source 200 table); [..|done];
    apply (bool_decide_unpack _); vm_compute; exact I.
Defined.

Lemma run_provenance_two_files :
  ∃ table,
    run (U:=ascii_tables) (F:=hundredths) (E:=rejects_NaT)
      two_files sample_source 200 = Some (Some table)
    ∧ invoice_id <$> read_parquet two_files `prefix_of` invoice_id <$> table
    ∧ ∀ rec, rec ∈ table →
        rec ∈ read_parquet two_files
        ∨ ∃ r, r ∈ sample_source ∧ Src.deleted_at r = None
               ∧ invoice_id rec = str_int (Src.id r)
               ∧ updated_at rec = Src.updated_at r
               ∧ inserted_at rec = 200.
Proof.
  destruct run_two_files_exports as [table Hrun]. exists table.
  split; [done|].
  destruct (run_provenance (U:=ascii_tables) (F:=hundredths) (E:=rejects_NaT)
              two_files sample_source 200 table Hrun) as (? & ? & _).
  by split.
Defined.

Lemma run_watermark_advances_two_files :
  ∃ table m',
    run (U:=ascii_tables) (F:=hundredths) (E:=rejects_NaT)
      two_files sample_source 200 = Some (Some table)
    ∧ latest_updated_at two_files = Some 55
    ∧ latest_updated_at [table] = Some m' ∧ 55 < m'.
Proof.
  destruct run_two_files_exports as [table Hrun].
  assert (latest_updated_at two_files = Some 55) as Hm.
  { vm_compute. reflexivity. }
  destruct (run_watermark_advances (U:=ascii_tables) (F:=hundredths)
              (E:=rejects_NaT) two_files sample_source 200 table 55 Hm Hrun)
    as (m' & Hm' & Hlt).
  by exists table, m'.
Defined.

Lemma run_nothing_to_process_two_files :
  run (U:=ascii_tables) (F:=hundredths) (E:=rejects_NaT)
    two_files [old_invoice; deleted_invoice] 200 = Some None.
Proof.
  apply (run_nothing_to_process (U:=ascii_tables) (F:=hundredths)
           (E:=rejects_NaT)); [apply hundredths_accepts_empty|].
  intros r Hr. apply elem_of_cons in Hr as [->|Hr]; [by vm_compute|].
  apply list_elem_of_singleton in Hr as ->. by vm_compute.
Defined.

Lemma second_run_two_files :
  ∃ table,
    run (U:=ascii_tables) (F:=hundredths) (E:=rejects_NaT)
      two_files sample_source 200 = Some (Some table)
    ∧ run (U:=ascii_tables) (F:=hundredths) (E:=rejects_NaT)
        [table] sample_source 300 = Some None.
Proof.
  destruct run_two_files_exports as [table Hrun]. exists table.
  split; [done|].
  apply (second_run_exports_nothing (U:=ascii_tables) (F:=hundredths)
           (E:=rejects_NaT) two_files sample_source 200 300 table).
  - apply hundredths_keeps_length.
  - apply hundredths_accepts_empty.
  - apply (bool_decide_unpack _). vm_compute. exact I.
  - right. vm_compute. by eexists.
  - done.
  - destruct (run_Some _ _ _ _ Hrun) as (final & Hfinal & Hne & Heq).
    unfold latest_updated_at. rewrite read_parquet_one, Heq.
    destruct (upsert_max_advances (U:=ascii_tables) (E:=rejects_NaT)
                (updated_at_filter two_files) 55
                sample_source 200 final (read_parquet two_files))
      as (m' & Hm' & _); [by vm_compute|done|done|by eexists].
Defined.


Lemma run_exports_accepted_rows_two_files :
  ∃ table rec,
    run (U:=ascii_tables) (F:=hundredths) (E:=rejects_NaT)
      two_files sample_source 200 = Some (Some table)
    ∧ rec ∈ table
    ∧ invoice_id rec = str_int (Src.id paid_invoice)
    ∧ updated_at rec = Src.updated_at paid_invoice
    ∧ inserted_at rec = 200.
Proof.
  destruct run_two_files_exports as [table Hrun].
  destruct (run_exports_accepted_rows (U:=ascii_tables) (F:=hundredths)
              (E:=rejects_NaT) two_files sample_source 200 table paid_invoice)
    as (rec & Hrec); [apply hundredths_keeps_length| |done| |by vm_compute|].
  - apply (bool_decide_unpack _). vm_compute. exact I.
  - apply list_elem_of_further, list_elem_of_here.
  - by exists table, rec.
Defined.

